(** * The CSS selector builder of [src/06-objects-tasks.js]

    A shallow embedding of [cssSelectorBuilder] and of the seven constructor
    functions that hang off it, followed by the properties of the builder:
    rendering, ordering and cardinality errors, combination and the absence
    of mutation of already built selectors.

    The objects created by [new XSelector(val, builder)] live in a store
    (a list indexed by address); the constructors write the two fields
    [value] and [prevValue] of the object they have just allocated.  The
    prototype objects are set up once, when the module is loaded (lines
    223-268 of the source), and are modelled as constant tables of own
    properties that are searched along the prototype chain. *)

From stdpp Require Import base list strings.

(** ** Values, objects and the store *)

(** The values a field of a selector object holds: the payload strings,
    and [undefined] for a property that has not been assigned yet. *)
Inductive jsval :=
  | undefined
  | Str (s : string).

(** [`${v}`]: the conversion applied by a template literal. *)
Definition ToString (v : jsval) : string :=
  match v with
  | undefined => "undefined"
  | Str s => s
  end.

(** The six constructor functions that are instantiated;
    [selectorBase] itself is never called with [new]. *)
Inductive ctor :=
  | ElementSelector
  | IdSelector
  | ClassSelector
  | AttrSelector
  | PseudoClassSelector
  | PseudoElementSelector.

(** The names of the six part-producing methods. *)
Inductive method :=
  | element
  | id
  | class
  | attr
  | pseudoClass
  | pseudoElement.

#[global] Instance ctor_eq_dec : EqDecision ctor.
Proof. solve_decision. Defined.

#[global] Instance method_eq_dec : EqDecision method.
Proof. solve_decision. Defined.

(** An object made by [new C(val, builder)]: its prototype is
    [C.prototype], and it owns the two properties the constructor
    assigns. *)
Record object := Object {
  proto : ctor;
  value : jsval;
  prevValue : jsval;
}.

Abbreviation loc := nat.
Abbreviation heap := (list object).

(** [new Error(msg)]. *)
Record Error := new_Error { message : string }.

(** The receiver [this] of a part-producing method: the facade object
    [cssSelectorBuilder] itself, or an object of the store. *)
Inductive receiver :=
  | cssSelectorBuilder
  | Fragment (l : loc).

(** Anything with a [stringify] method that the builder hands out (or is):
    a receiver, or the object literal returned by [combine], whose
    [stringify] closes over the three parameters of [combine]. *)
Inductive selector :=
  | Chain (r : receiver)
  | Combined (selector1 : selector) (combinator : string) (selector2 : selector).

(** ** Computations over the store *)

Inductive outcome (A : Type) :=
  | Normal (a : A) (h : heap)     (* normal completion *)
  | Throw (e : Error) (h : heap)  (* a [throw] that nobody catches *)
  | Stuck.                        (* an address that was never allocated *)

Arguments Normal {A} a h.
Arguments Throw {A} e h.
Arguments Stuck {A}.

Definition M (A : Type) : Type := heap -> outcome A.

Definition ret {A} (a : A) : M A := fun h => Normal a h.

Definition bind {A B} (m : M A) (k : A -> M B) : M B :=
  fun h =>
    match m h with
    | Normal a h' => k a h'
    | Throw e h' => Throw e h'
    | Stuck => Stuck
    end.

Definition throw {A} (e : Error) : M A := fun h => Throw e h.

Notation "x <- m ;; k" := (bind m (fun x => k))
  (at level 100, m at next level, right associativity).
Notation "m ;;; k" := (bind m (fun _ => k))
  (at level 100, right associativity).

(** The fresh object of a [new] expression, before the constructor body
    has run: no own property yet. *)
Definition alloc (c : ctor) : M loc :=
  fun h => Normal (length h) (h ++ [Object c undefined undefined]).

Definition load (l : loc) : M object :=
  fun h =>
    match h !! l with
    | Some o => Normal o h
    | None => Stuck
    end.

(** [this.value = v] *)
Definition set_value (l : loc) (v : jsval) : M unit :=
  fun h =>
    match h !! l with
    | Some o => Normal tt (<[l := Object (proto o) v (prevValue o)]> h)
    | None => Stuck
    end.

(** [this.prevValue = v] *)
Definition set_prevValue (l : loc) (v : jsval) : M unit :=
  fun h =>
    match h !! l with
    | Some o => Normal tt (<[l := Object (proto o) (value o) v]> h)
    | None => Stuck
    end.

(** ** The prototype objects *)

(** [Prototype C] is [C.prototype], made by
    [Object.create(selectorBase.prototype)]; [selectorBase_prototype] is
    the object [cssSelectorBuilder] (line 223). *)
Inductive protoObj :=
  | Prototype (c : ctor)
  | selectorBase_prototype
  | Object_prototype.

#[global] Instance protoObj_eq_dec : EqDecision protoObj.
Proof. solve_decision. Defined.

(** The objects searched, in this order, when a property of an instance of
    [c] is not one of its own. *)
Definition prototype_chain (c : ctor) : list protoObj :=
  [Prototype c; selectorBase_prototype; Object_prototype].

(** The same for [cssSelectorBuilder], an object literal. *)
Definition builder_prototype_chain : list protoObj := [Object_prototype].

(** The functions stored under the six method names. *)
Inductive func :=
  | new_ (c : ctor)           (* [m(value) { const selector = new C(value, this); return selector; }] *)
  | selectorsOrderError
  | multipleSelectorsError.

(** Own properties named after the six methods: lines 179-207 for
    [cssSelectorBuilder], lines 230-268 for the six prototypes. *)
Definition own_method (p : protoObj) (m : method) : option func :=
  match p, m with
  | selectorBase_prototype, element => Some (new_ ElementSelector)
  | selectorBase_prototype, id => Some (new_ IdSelector)
  | selectorBase_prototype, class => Some (new_ ClassSelector)
  | selectorBase_prototype, attr => Some (new_ AttrSelector)
  | selectorBase_prototype, pseudoClass => Some (new_ PseudoClassSelector)
  | selectorBase_prototype, pseudoElement => Some (new_ PseudoElementSelector)
  | Prototype ElementSelector, element => Some multipleSelectorsError
  | Prototype IdSelector, id => Some multipleSelectorsError
  | Prototype IdSelector, element => Some selectorsOrderError
  | Prototype ClassSelector, element => Some selectorsOrderError
  | Prototype ClassSelector, id => Some selectorsOrderError
  | Prototype AttrSelector, element => Some selectorsOrderError
  | Prototype AttrSelector, id => Some selectorsOrderError
  | Prototype AttrSelector, class => Some selectorsOrderError
  | Prototype PseudoClassSelector, element => Some selectorsOrderError
  | Prototype PseudoClassSelector, id => Some selectorsOrderError
  | Prototype PseudoClassSelector, class => Some selectorsOrderError
  | Prototype PseudoClassSelector, attr => Some selectorsOrderError
  | Prototype PseudoElementSelector, pseudoElement => Some multipleSelectorsError
  | Prototype PseudoElementSelector, element => Some selectorsOrderError
  | Prototype PseudoElementSelector, id => Some selectorsOrderError
  | Prototype PseudoElementSelector, class => Some selectorsOrderError
  | Prototype PseudoElementSelector, attr => Some selectorsOrderError
  | Prototype PseudoElementSelector, pseudoClass => Some selectorsOrderError
  | _, _ => None
  end.

(** The own property [currentValueStr], as a function of [this.value]:
    lines 224-226 for the base, and the overriding definitions of five
    prototypes ([ElementSelector.prototype] has none). *)
Definition own_currentValueStr (p : protoObj) : option (jsval -> string) :=
  match p with
  | selectorBase_prototype => Some (fun v => ToString v)
  | Prototype ElementSelector => None
  | Prototype IdSelector => Some (fun v => "#" +:+ ToString v)
  | Prototype ClassSelector => Some (fun v => "." +:+ ToString v)
  | Prototype AttrSelector => Some (fun v => "[" +:+ ToString v +:+ "]")
  | Prototype PseudoClassSelector => Some (fun v => ":" +:+ ToString v)
  | Prototype PseudoElementSelector => Some (fun v => "::" +:+ ToString v)
  | Object_prototype => None
  end.

(** Property lookup: the first object that owns the property, going up. *)
Fixpoint get {F : Type} (own : protoObj -> option F) (ps : list protoObj) : option F :=
  match ps with
  | [] => None
  | p :: ps' =>
      match own p with
      | Some f => Some f
      | None => get own ps'
      end
  end.

(** The objects searched for a method of [this]: [this] owns no method
    when it is an instance; [cssSelectorBuilder] is the object
    [selectorBase_prototype] and so comes first in its own search. *)
Definition lookup_path (this : receiver) : M (list protoObj) :=
  match this with
  | cssSelectorBuilder => ret (selectorBase_prototype :: builder_prototype_chain)
  | Fragment l => o <- load l ;; ret (prototype_chain (proto o))
  end.

(** [builder instanceof selectorBase]: is [selectorBase.prototype] on the
    prototype chain of [builder] (the object itself is not searched)? *)
Definition instanceof_selectorBase (builder : receiver) : M bool :=
  match builder with
  | cssSelectorBuilder =>
      ret (bool_decide (selectorBase_prototype ∈ builder_prototype_chain))
  | Fragment l =>
      o <- load l ;;
      ret (bool_decide (selectorBase_prototype ∈ prototype_chain (proto o)))
  end.

(** [this.value] and [this.prevValue]; [cssSelectorBuilder] has neither,
    nor have the objects above it. *)
Definition get_value (this : receiver) : M jsval :=
  match this with
  | cssSelectorBuilder => ret undefined
  | Fragment l => o <- load l ;; ret (value o)
  end.

Definition get_prevValue (this : receiver) : M jsval :=
  match this with
  | cssSelectorBuilder => ret undefined
  | Fragment l => o <- load l ;; ret (prevValue o)
  end.

(** ** The methods *)

(** [this.currentValueStr()]; the property is found on every path, since
    [selectorBase_prototype] owns it. *)
Definition currentValueStr (this : receiver) : M string :=
  ps <- lookup_path this ;;
  match get own_currentValueStr ps with
  | Some f => v <- get_value this ;; ret (f v)
  | None => fun _ => Stuck
  end.

(** [selectorBase.prototype.stringify], lines 227-229; no prototype
    overrides it. *)
Definition selectorBase_stringify (this : receiver) : M string :=
  prev <- get_prevValue this ;;
  cur <- currentValueStr this ;;
  ret (ToString prev +:+ cur).

(** [stringify()] on any selector; for the result of [combine] it is the
    method of the object literal, lines 211-213. *)
Fixpoint stringify (s : selector) : M string :=
  match s with
  | Chain this => selectorBase_stringify this
  | Combined selector1 combinator selector2 =>
      s1 <- stringify selector1 ;;
      s2 <- stringify selector2 ;;
      ret (s1 +:+ " " +:+ combinator +:+ " " +:+ s2)
  end.

(** [new C(val, builder)]: the seven constructor functions have the same
    body, lines 120-177. *)
Definition construct (c : ctor) (val : string) (builder : receiver) : M receiver :=
  this <- alloc c ;;
  set_value this (Str val) ;;;
  b <- instanceof_selectorBase builder ;;
  (if b : bool
   then s <- stringify (Chain builder) ;; set_prevValue this (Str s)
   else set_prevValue this (Str "")) ;;;
  ret (Fragment this).

(** [String(re)] for a regular expression literal [/source/flags]. *)
Definition RegExp_toString (source flags : string) : string :=
  "/" +:+ source +:+ "/" +:+ flags.

(** The error of [selectorsOrderError], lines 217-219: the argument of
    [new Error] is a regular expression literal, which the constructor
    converts to a string. *)
Definition orderError : Error :=
  new_Error (RegExp_toString
    "Selector parts should be arranged in the following order: element, id, class, attribute, pseudo-class, pseudo-element"
    "").

(** The error of [multipleSelectorsError], lines 220-222. *)
Definition multipleError : Error :=
  new_Error
    "Element, id and pseudo-element should not occur more then one time inside the selector".

Definition apply_func (f : func) (val : string) (this : receiver) : M receiver :=
  match f with
  | new_ c => construct c val this
  | selectorsOrderError => throw orderError
  | multipleSelectorsError => throw multipleError
  end.

(** [this.m(val)] for one of the six method names; each is found on every
    path, since [selectorBase_prototype] owns the six of them. *)
Definition call (m : method) (val : string) (this : receiver) : M receiver :=
  ps <- lookup_path this ;;
  match get (fun p => own_method p m) ps with
  | Some f => apply_func f val this
  | None => fun _ => Stuck
  end.

(** [combine(selector1, combinator, selector2)], lines 209-215. *)
Definition combine (selector1 : selector) (combinator : string) (selector2 : selector)
  : M selector :=
  ret (Combined selector1 combinator selector2).

(** [cssSelectorBuilder.m1(v1).m2(v2)...]: a chain of calls, each on the
    result of the one before. *)
Fixpoint chain (ops : list (method * string)) (this : receiver) : M receiver :=
  match ops with
  | [] => ret this
  | (m, v) :: ops' => r <- call m v this ;; chain ops' r
  end.

(** ** The validator and the rendering, as the specification words them *)

(** Position in the order element, id, class, attribute, pseudo-class,
    pseudo-element. *)
Definition rank (m : method) : nat :=
  match m with
  | element => 0
  | id => 1
  | class => 2
  | attr => 3
  | pseudoClass => 4
  | pseudoElement => 5
  end.

(** The kinds that may occur once only. *)
Definition single_occurrence (m : method) : bool :=
  match m with
  | element | id | pseudoElement => true
  | class | attr | pseudoClass => false
  end.

(** Per-kind rendering of a payload. *)
Definition perKindRender (m : method) (v : string) : string :=
  match m with
  | element => v
  | id => "#" +:+ v
  | class => "." +:+ v
  | attr => "[" +:+ v +:+ "]"
  | pseudoClass => ":" +:+ v
  | pseudoElement => "::" +:+ v
  end.

(** Concatenation, with no separator, of the renderings of the parts. *)
Fixpoint concatRender (ops : list (method * string)) : string :=
  match ops with
  | [] => ""
  | (m, v) :: ops' => perKindRender m v +:+ concatRender ops'
  end.

(** The kinds of a list are non-decreasing in the order. *)
Fixpoint non_decreasing (ks : list method) : bool :=
  match ks with
  | [] => true
  | k :: ks' => forallb (fun k' => rank k <=? rank k') ks' && non_decreasing ks'
  end.

Definition occurrences (m : method) (ks : list method) : nat :=
  length (filter (fun k => k = m) ks).

(** No single-occurrence kind occurs twice. *)
Definition single_occurrence_respected (ks : list method) : bool :=
  forallb (fun m => occurrences m ks <=? 1) [element; id; pseudoElement].

Definition valid_ordering (ks : list method) : bool :=
  non_decreasing ks && single_occurrence_respected ks.

Definition kinds (ops : list (method * string)) : list method := ops.*1.

(** ** Well-formed references *)

Definition valid_receiver (h : heap) (r : receiver) : Prop :=
  match r with
  | cssSelectorBuilder => True
  | Fragment l => l < length h
  end.

Fixpoint valid (h : heap) (s : selector) : Prop :=
  match s with
  | Chain r => valid_receiver h r
  | Combined selector1 _ selector2 => valid h selector1 /\ valid h selector2
  end.

(** The constructor whose prototype a receiver has; [None] for the
    builder itself. *)
Definition top (h : heap) (r : receiver) : option ctor :=
  match r with
  | cssSelectorBuilder => None
  | Fragment l => proto <$> h !! l
  end.

(** The method that makes instances of a constructor, and back. *)
Definition kind_of (c : ctor) : method :=
  match c with
  | ElementSelector => element
  | IdSelector => id
  | ClassSelector => class
  | AttrSelector => attr
  | PseudoClassSelector => pseudoClass
  | PseudoElementSelector => pseudoElement
  end.

Definition ctor_of (m : method) : ctor :=
  match m with
  | element => ElementSelector
  | id => IdSelector
  | class => ClassSelector
  | attr => AttrSelector
  | pseudoClass => PseudoClassSelector
  | pseudoElement => PseudoElementSelector
  end.

(** The text a stored object stringifies to. *)
Definition object_text (o : object) : string :=
  ToString (prevValue o) +:+ perKindRender (kind_of (proto o)) (ToString (value o)).

(** What [stringify] reads off a store, as a function of the store. *)
Fixpoint text (h : heap) (s : selector) : option string :=
  match s with
  | Chain cssSelectorBuilder => Some ("undefined" +:+ "undefined")
  | Chain (Fragment l) => object_text <$> h !! l
  | Combined selector1 combinator selector2 =>
      match text h selector1, text h selector2 with
      | Some s1, Some s2 => Some (s1 +:+ " " +:+ combinator +:+ " " +:+ s2)
      | _, _ => None
      end
  end.

(** ** The validator as a function of the last part *)

(** The verdict for method [m] on an instance of [c], in words of ranks. *)
Definition verdict (c : ctor) (m : method) : func :=
  if rank m <? rank (kind_of c) then selectorsOrderError
  else if single_occurrence m && bool_decide (m = kind_of c) then multipleSelectorsError
  else new_ (ctor_of m).

(** The verdict on a receiver whose constructor is [t]; the builder
    itself ([None]) refuses nothing. *)
Definition verdict_top (t : option ctor) (m : method) : func :=
  match t with
  | None => new_ (ctor_of m)
  | Some c => verdict c m
  end.

(** The string a constructor records as [prevValue] for its [builder]. *)
Definition prev_of (h : heap) (r : receiver) : option string :=
  match r with
  | cssSelectorBuilder => Some ""
  | Fragment l => object_text <$> h !! l
  end.

(** The validator run over the kinds of a chain. *)
Fixpoint accepts (t : option ctor) (ks : list method) : bool :=
  match ks with
  | [] => true
  | k :: ks' =>
      match verdict_top t k with
      | new_ c => accepts (Some c) ks'
      | _ => false
      end
  end.

Definition last_top (t : option ctor) (ks : list method) : option ctor :=
  match last ks with
  | Some k => Some (ctor_of k)
  | None => t
  end.

(** ** Programs and stores of the examples *)

(** The example of the documentation, lines 101-114: the arguments are
    evaluated from left to right, innermost [combine] first. *)
Definition documented_example : M string :=
  a <- chain [(element, "div"); (id, "main"); (class, "container"); (class, "draggable")]
         cssSelectorBuilder ;;
  b <- chain [(element, "table"); (id, "data")] cssSelectorBuilder ;;
  c <- chain [(element, "tr"); (pseudoClass, "nth-of-type(even)")] cssSelectorBuilder ;;
  d <- chain [(element, "td"); (pseudoClass, "nth-of-type(even)")] cssSelectorBuilder ;;
  cd <- combine (Chain c) " " (Chain d) ;;
  bcd <- combine (Chain b) "~" cd ;;
  abcd <- combine (Chain a) "+" bcd ;;
  stringify abcd.

(** The store after [element('div').id('main')] and
    [element('td').pseudoClass('hover')], run one after the other from an
    empty store. *)
Definition sample_heap : heap :=
  [Object ElementSelector (Str "div") (Str "");
   Object IdSelector (Str "main") (Str "div");
   Object ElementSelector (Str "td") (Str "");
   Object PseudoClassSelector (Str "hover") (Str "td")].

(** The store an outcome leaves behind. *)
Definition final_heap {A} (o : outcome A) : option heap :=
  match o with
  | Normal _ h | Throw _ h => Some h
  | Stuck => None
  end.

(** ** Stores and outcomes of arbitrary call sequences *)


(** How an outcome ended: [Some None] normally, [Some (Some e)] by
    throwing [e]. *)
Definition status {A} (o : outcome A) : option (option Error) :=
  match o with
  | Normal _ _ => Some None
  | Throw e _ => Some (Some e)
  | Stuck => None
  end.

(** The error of the first refused part of a chain, if any is refused. *)
Fixpoint first_error (t : option ctor) (ks : list method) : option Error :=
  match ks with
  | [] => None
  | k :: ks' =>
      match verdict_top t k with
      | new_ c => first_error (Some c) ks'
      | selectorsOrderError => Some orderError
      | multipleSelectorsError => Some multipleError
      end
  end.

(** * Properties *)

(** ** Strings *)

Lemma append_assoc (a b c : string) : (a +:+ b) +:+ c = a +:+ (b +:+ c).
Proof.
  induction a as [|x a IH]; [done|].
  change (String x ((a +:+ b) +:+ c) = String x (a +:+ b +:+ c)).
  by rewrite IH.
Qed.

Lemma append_empty_r (a : string) : a +:+ "" = a.
Proof.
  induction a as [|x a IH]; [done|].
  change (String x (a +:+ "") = String x a).
  by rewrite IH.
Qed.

(** ** The dispatch table *)

Lemma kind_of_ctor_of m : kind_of (ctor_of m) = m.
Proof. by destruct m. Qed.

Lemma rank_inj m k : rank m = rank k -> m = k.
Proof. by destruct m, k. Qed.

(** The builder makes a new object for each of the six methods. *)
Lemma get_method_builder m :
  get (fun p => own_method p m) (selectorBase_prototype :: builder_prototype_chain)
  = Some (new_ (ctor_of m)).
Proof. by destruct m. Qed.

Lemma get_method_instance c m :
  get (fun p => own_method p m) (prototype_chain c) = Some (verdict c m).
Proof. by destruct c, m. Qed.

Lemma get_currentValueStr_instance c :
  exists f, get own_currentValueStr (prototype_chain c) = Some f
            /\ forall v, f v = perKindRender (kind_of c) (ToString v).
Proof. destruct c; eexists; (split; [reflexivity|done]). Qed.

(** ** [stringify] only reads *)

Lemma selectorBase_stringify_builder (h : heap) :
  selectorBase_stringify cssSelectorBuilder h = Normal ("undefined" +:+ "undefined") h.
Proof. reflexivity. Qed.

Lemma selectorBase_stringify_fragment (h : heap) l o :
  h !! l = Some o ->
  selectorBase_stringify (Fragment l) h = Normal (object_text o) h.
Proof.
  intros Hl.
  destruct (get_currentValueStr_instance (proto o)) as (f & Hf & Hfv).
  unfold selectorBase_stringify, currentValueStr, get_prevValue, get_value,
    lookup_path, bind, load, ret.
  repeat (first [rewrite Hl | rewrite Hf]; cbv beta iota).
  unfold object_text. by rewrite Hfv.
Qed.

Lemma selectorBase_stringify_dangling (h : heap) l :
  h !! l = None -> selectorBase_stringify (Fragment l) h = Stuck.
Proof.
  intros Hl. unfold selectorBase_stringify, get_prevValue, bind, load.
  by rewrite Hl.
Qed.

Lemma stringify_text (h : heap) s :
  stringify s h = match text h s with Some t => Normal t h | None => Stuck end.
Proof.
  induction s as [[|l]|s1 IH1 c s2 IH2]; cbn [stringify text].
  - apply selectorBase_stringify_builder.
  - destruct (h !! l) as [o|] eqn:Hl; cbn.
    + by apply selectorBase_stringify_fragment.
    + by apply selectorBase_stringify_dangling.
  - unfold bind. rewrite IH1. destruct (text h s1) as [t1|]; [|done].
    rewrite IH2. by destruct (text h s2).
Qed.

Lemma text_valid (h : heap) s : valid h s -> is_Some (text h s).
Proof.
  induction s as [[|l]|s1 IH1 c s2 IH2]; cbn [valid text valid_receiver].
  - eauto.
  - intros Hl. apply lookup_lt_is_Some_2 in Hl as [o ->]. cbn. eauto.
  - intros [[t1 ->]%IH1 [t2 ->]%IH2]. eauto.
Qed.

Lemma text_prefix (h h' : heap) s t :
  h `prefix_of` h' -> text h s = Some t -> text h' s = Some t.
Proof.
  intros Hp. revert t.
  induction s as [[|l]|s1 IH1 c s2 IH2]; cbn [text]; intros t.
  - done.
  - destruct (h !! l) as [o|] eqn:Hl; [|done].
    by rewrite (prefix_lookup_Some _ _ _ _ Hl Hp).
  - destruct (text h s1) as [t1|]; [|done].
    destruct (text h s2) as [t2|]; [|done].
    by rewrite (IH1 _ eq_refl), (IH2 _ eq_refl).
Qed.

Lemma valid_receiver_prefix (h h' : heap) r :
  h `prefix_of` h' -> valid_receiver h r -> valid_receiver h' r.
Proof.
  intros Hp%prefix_length. destruct r; cbn; [done|lia].
Qed.

Lemma valid_prefix (h h' : heap) s :
  h `prefix_of` h' -> valid h s -> valid h' s.
Proof.
  intros Hp. induction s; cbn; [by apply valid_receiver_prefix|tauto].
Qed.

(** ** The constructors write to the object they allocate, and to no other *)

Lemma lookup_fresh (h : heap) o : (h ++ [o]) !! length h = Some o.
Proof. by apply list_lookup_middle. Qed.

Lemma insert_fresh (h : heap) o o' : <[length h := o']> (h ++ [o]) = h ++ [o'].
Proof.
  rewrite insert_app_r_alt by lia. by rewrite Nat.sub_diag.
Qed.

Lemma instanceof_instance c :
  bool_decide (selectorBase_prototype ∈ prototype_chain c) = true.
Proof. apply bool_decide_eq_true_2. unfold prototype_chain. repeat constructor. Qed.

Lemma instanceof_builder :
  bool_decide (selectorBase_prototype ∈ builder_prototype_chain) = false.
Proof.
  apply bool_decide_eq_false_2. unfold builder_prototype_chain.
  intros H. inversion H as [|? ? ? H']; inversion H'.
Qed.

Lemma construct_builder (h : heap) c v :
  construct c v cssSelectorBuilder h
  = Normal (Fragment (length h)) (h ++ [Object c (Str v) (Str "")]).
Proof.
  unfold construct, bind, alloc, set_value, set_prevValue, instanceof_selectorBase, ret.
  rewrite lookup_fresh, insert_fresh, instanceof_builder; cbn [proto value prevValue].
  by rewrite lookup_fresh, insert_fresh.
Qed.

Lemma construct_fragment (h : heap) c v l o :
  h !! l = Some o ->
  construct c v (Fragment l) h
  = Normal (Fragment (length h)) (h ++ [Object c (Str v) (Str (object_text o))]).
Proof.
  intros Hl.
  unfold construct, bind at 1 2, alloc, set_value.
  rewrite lookup_fresh, insert_fresh; cbn [proto value prevValue].
  unfold bind at 1, instanceof_selectorBase, bind at 1, load, ret.
  rewrite (lookup_app_l_Some _ _ _ _ Hl), instanceof_instance.
  unfold bind at 1 2. rewrite stringify_text. cbn [text].
  rewrite (lookup_app_l_Some _ _ _ _ Hl). cbn [fmap option_fmap option_map].
  unfold set_prevValue.
  by rewrite lookup_fresh, insert_fresh.
Qed.

(** ** One call *)

Lemma prev_of_valid (h : heap) r : valid_receiver h r -> is_Some (prev_of h r).
Proof.
  destruct r as [|l]; cbn; [eauto|].
  intros [o ->]%lookup_lt_is_Some_2. cbn. eauto.
Qed.

Lemma call_spec (h : heap) r m v p :
  prev_of h r = Some p ->
  call m v r h =
    match verdict_top (top h r) m with
    | new_ c => Normal (Fragment (length h)) (h ++ [Object c (Str v) (Str p)])
    | selectorsOrderError => Throw orderError h
    | multipleSelectorsError => Throw multipleError h
    end.
Proof.
  destruct r as [|l]; cbn [prev_of top verdict_top].
  - intros [= <-]. unfold call, bind, lookup_path, ret.
    rewrite get_method_builder. apply construct_builder.
  - destruct (h !! l) as [o|] eqn:Hl; [|done]. intros [= <-].
    unfold call, bind, lookup_path, bind, load, ret. rewrite Hl.
    rewrite get_method_instance. cbn [fmap option_fmap option_map verdict_top].
    destruct (verdict (proto o) m); cbn [apply_func]; [|reflexivity..].
    by apply construct_fragment.
Qed.

Lemma verdict_top_new t m c : verdict_top t m = new_ c -> c = ctor_of m.
Proof.
  destruct t as [c'|]; cbn; [|congruence].
  unfold verdict. repeat case_match; congruence.
Qed.

(** ** Chains of calls *)

Lemma last_top_cons t k ks : last_top t (k :: ks) = last_top (Some (ctor_of k)) ks.
Proof. unfold last_top. rewrite last_cons. by destruct (last ks). Qed.

Lemma top_fresh (h : heap) c v p :
  top (h ++ [Object c v p]) (Fragment (length h)) = Some c.
Proof. cbn. by rewrite lookup_fresh. Qed.

Lemma prev_of_fresh (h : heap) c v p :
  prev_of (h ++ [Object c (Str v) (Str p)]) (Fragment (length h))
  = Some (p +:+ perKindRender (kind_of c) v).
Proof. cbn. by rewrite lookup_fresh. Qed.

(** Every outcome of a chain that starts on a valid receiver. *)
Lemma chain_outcome ops : forall (h : heap) r,
  valid_receiver h r ->
  match chain ops r h with
  | Normal r' h' =>
      accepts (top h r) (kinds ops) = true
      /\ h `prefix_of` h'
      /\ valid_receiver h' r'
      /\ top h' r' = last_top (top h r) (kinds ops)
      /\ prev_of h' r' = (fun p => p +:+ concatRender ops) <$> prev_of h r
  | Throw e h' =>
      accepts (top h r) (kinds ops) = false
      /\ h `prefix_of` h'
      /\ (e = orderError \/ e = multipleError)
  | Stuck => False
  end.
Proof.
  induction ops as [|[m v] ops IH]; intros h r Hr.
  - cbn. split_and!; [done..|].
    destruct (prev_of_valid _ _ Hr) as [p ->]. cbn. by rewrite append_empty_r.
  - cbn [chain kinds fmap list_fmap fst accepts]. unfold bind.
    destruct (prev_of_valid _ _ Hr) as [p Hp].
    rewrite (call_spec _ _ m v _ Hp).
    destruct (verdict_top (top h r) m) as [c| |] eqn:Hv; [|by auto..].
    pose proof (verdict_top_new _ _ _ Hv) as ->.
    set (h1 := h ++ [Object (ctor_of m) (Str v) (Str p)]).
    assert (valid_receiver h1 (Fragment (length h))) as Hr1.
    { cbn. unfold h1. rewrite length_app. cbn. lia. }
    specialize (IH h1 (Fragment (length h)) Hr1).
    assert (h `prefix_of` h1) as Hpre by (by apply prefix_app_r).
    assert (top h1 (Fragment (length h)) = Some (ctor_of m)) as Ht1
      by apply top_fresh.
    assert (prev_of h1 (Fragment (length h)) = Some (p +:+ perKindRender m v)) as Hp1.
    { unfold h1. by rewrite prev_of_fresh, kind_of_ctor_of. }
    rewrite Ht1, Hp1 in IH.
    destruct (chain ops (Fragment (length h)) h1) as [r' h'|e h'|]; [| |done].
    + destruct IH as (Ha & Hpre' & Hr' & Ht & Hprev).
      split_and!; [done|by etrans|done|by rewrite last_top_cons|].
      rewrite Hprev, Hp. cbn. by rewrite append_assoc.
    + destruct IH as (Ha & Hpre' & He). split_and!; [done|by etrans|done].
Qed.

(** ** The validator, in words of ranks *)

Lemma verdict_order c m :
  rank m < rank (kind_of c) -> verdict c m = selectorsOrderError.
Proof.
  intros H. unfold verdict. by rewrite (proj2 (Nat.ltb_lt _ _) H).
Qed.

Lemma verdict_multiple c m :
  m = kind_of c -> single_occurrence m = true ->
  verdict c m = multipleSelectorsError.
Proof.
  intros -> Hs. unfold verdict. rewrite Nat.ltb_irrefl, Hs.
  by rewrite bool_decide_eq_true_2.
Qed.

Lemma verdict_new c m :
  rank (kind_of c) <= rank m ->
  (single_occurrence m = true -> m <> kind_of c) ->
  verdict c m = new_ (ctor_of m).
Proof.
  intros Hle Hne. unfold verdict.
  rewrite (proj2 (Nat.ltb_ge _ _) Hle).
  destruct (single_occurrence m); [|done].
  by rewrite bool_decide_eq_false_2 by auto.
Qed.

Lemma verdict_new_inv c m c' :
  verdict c m = new_ c' ->
  rank (kind_of c) <= rank m /\ (single_occurrence m = true -> m <> kind_of c).
Proof.
  unfold verdict. destruct (Nat.ltb_spec (rank m) (rank (kind_of c))); [done|].
  destruct (single_occurrence m); cbn; [|by intros; split].
  case_bool_decide; [done|]. by intros; split.
Qed.

Lemma accepts_cons_inv t k ks :
  accepts t (k :: ks) = true ->
  verdict_top t k = new_ (ctor_of k) /\ accepts (Some (ctor_of k)) ks = true.
Proof.
  cbn. destruct (verdict_top t k) as [c| |] eqn:Hv; [|done..].
  by rewrite (verdict_top_new _ _ _ Hv).
Qed.

(** In an accepted chain the ranks never go down: the last kind is the
    greatest. *)
Lemma accepts_last_ge ks : forall c,
  accepts (Some c) ks = true ->
  exists c', last_top (Some c) ks = Some c' /\ rank (kind_of c) <= rank (kind_of c').
Proof.
  induction ks as [|k ks IH]; intros c Ha.
  - exists c. by split.
  - apply accepts_cons_inv in Ha as [Hv Ha].
    apply verdict_new_inv in Hv as [Hle _].
    destruct (IH _ Ha) as (c' & Hl & Hle').
    exists c'. rewrite last_top_cons. split; [done|].
    rewrite kind_of_ctor_of in Hle'. lia.
Qed.

Lemma accepts_le_last ks : forall t k,
  accepts t ks = true -> k ∈ ks ->
  exists c', last_top t ks = Some c' /\ rank k <= rank (kind_of c').
Proof.
  induction ks as [|k0 ks IH]; intros t k Ha Hk.
  - by apply elem_of_nil in Hk.
  - apply accepts_cons_inv in Ha as [_ Ha]. rewrite last_top_cons.
    apply elem_of_cons in Hk as [->|Hk]; [|by eapply IH].
    destruct (accepts_last_ge _ _ Ha) as (c' & Hl & Hle).
    rewrite kind_of_ctor_of in Hle. eauto.
Qed.

Lemma last_top_elem t k ks :
  exists k', k' ∈ k :: ks /\ last_top t (k :: ks) = Some (ctor_of k').
Proof.
  revert k. induction ks as [|k1 ks IH]; intros k.
  - exists k. split; [by left|done].
  - destruct (IH k1) as (k' & Hin & Hl). exists k'. split; [by right|].
    by rewrite last_top_cons, <-(last_top_cons t).
Qed.

(** After any part, [element] is refused. *)
Lemma accepts_no_element ks : forall c,
  accepts (Some c) ks = true -> element ∉ ks.
Proof.
  induction ks as [|k ks IH]; intros c Ha; [by apply not_elem_of_nil|].
  apply accepts_cons_inv in Ha as [Hv Ha].
  apply not_elem_of_cons. split; [|by eapply IH].
  intros <-. by destruct c.
Qed.

(** *** A valid ordering is accepted *)

Lemma occurrences_cons m k ks :
  occurrences m (k :: ks) = (if decide (k = m) then 1 else 0) + occurrences m ks.
Proof.
  unfold occurrences. rewrite filter_cons. by destruct (decide (k = m)).
Qed.

Lemma occurrences_elem m ks : m ∈ ks -> 0 < occurrences m ks.
Proof.
  induction ks as [|k ks IH]; [by intros ?%elem_of_nil|].
  rewrite occurrences_cons. intros [->|Hin]%elem_of_cons.
  - rewrite decide_True by done. lia.
  - specialize (IH Hin). lia.
Qed.

Lemma single_occurrence_respected_spec ks m :
  single_occurrence_respected ks = true ->
  single_occurrence m = true -> occurrences m ks <= 1.
Proof.
  unfold single_occurrence_respected. cbn [forallb].
  rewrite !andb_true_iff, !Nat.leb_le. intros (He & Hi & Hp & _).
  by destruct m.
Qed.

Lemma single_occurrence_respected_tail k ks :
  single_occurrence_respected (k :: ks) = true ->
  single_occurrence_respected ks = true.
Proof.
  unfold single_occurrence_respected. cbn [forallb].
  rewrite !andb_true_iff, !Nat.leb_le, !occurrences_cons. lia.
Qed.

Lemma non_decreasing_cons k ks :
  non_decreasing (k :: ks) = true ->
  (forall k', k' ∈ ks -> rank k <= rank k') /\ non_decreasing ks = true.
Proof.
  cbn [non_decreasing]. rewrite andb_true_iff, forallb_forall.
  intros [Hall Hnd]. split; [|done].
  intros k' Hin%list_elem_of_In. by apply Nat.leb_le, Hall.
Qed.

Lemma accepts_intro ks : forall t,
  non_decreasing ks = true ->
  single_occurrence_respected ks = true ->
  (forall c, t = Some c ->
     (forall k, k ∈ ks -> rank (kind_of c) <= rank k)
     /\ (single_occurrence (kind_of c) = true -> kind_of c ∉ ks)) ->
  accepts t ks = true.
Proof.
  induction ks as [|k ks IH]; intros t Hnd Hso Ht; [done|].
  apply non_decreasing_cons in Hnd as [Hle Hnd].
  assert (verdict_top t k = new_ (ctor_of k)) as Hv.
  { destruct t as [c|]; [|done]. cbn. destruct (Ht c eq_refl) as [Hge Hnot].
    apply verdict_new; [apply Hge; by left|].
    intros Hs ->. apply (Hnot Hs). by left. }
  cbn [accepts]. rewrite Hv.
  apply IH; [done|by eapply single_occurrence_respected_tail|].
  intros c [= <-]. rewrite kind_of_ctor_of. split; [done|].
  intros Hs Hin%occurrences_elem.
  pose proof (single_occurrence_respected_spec _ _ Hso Hs) as H1.
  rewrite occurrences_cons, decide_True in H1 by done. lia.
Qed.

Lemma valid_ordering_accepts ks :
  valid_ordering ks = true -> accepts None ks = true.
Proof.
  unfold valid_ordering. rewrite andb_true_iff. intros [Hnd Hso].
  by apply accepts_intro.
Qed.

(** A repeatable kind is accepted any number of times once it is
    accepted at all. *)
Lemma accepts_repeat m (vs : list string) : forall t,
  single_occurrence m = false ->
  (forall c, t = Some c -> rank (kind_of c) <= rank m) ->
  accepts t (kinds ((fun v => (m, v)) <$> vs)) = true.
Proof.
  induction vs as [|v vs IH]; intros t Hs Ht; [done|].
  cbn [fmap list_fmap kinds fst accepts].
  assert (verdict_top t m = new_ (ctor_of m)) as ->.
  { destruct t as [c|]; [|done]. cbn.
    apply verdict_new; [by apply Ht|]. by rewrite Hs. }
  apply IH; [done|]. intros c [= <-]. by rewrite kind_of_ctor_of.
Qed.

(** An accepted chain runs to completion. *)
Lemma chain_accepted ops (h : heap) r :
  valid_receiver h r ->
  accepts (top h r) (kinds ops) = true ->
  exists r' h', chain ops r h = Normal r' h'.
Proof.
  intros Hr Ha. pose proof (chain_outcome ops h r Hr) as H.
  destruct (chain ops r h) as [r' h'|e h'|]; [by eauto| |done].
  destruct H as [H _]. congruence.
Qed.

(** What is known of a chain from the entry point that ran to
    completion. *)
Lemma chain_builder_Normal ops (h : heap) r h' :
  chain ops cssSelectorBuilder h = Normal r h' ->
  accepts None (kinds ops) = true
  /\ h `prefix_of` h'
  /\ valid_receiver h' r
  /\ top h' r = last_top None (kinds ops)
  /\ prev_of h' r = Some (concatRender ops).
Proof.
  intros Hc. pose proof (chain_outcome ops h cssSelectorBuilder I) as H.
  by rewrite Hc in H.
Qed.

Lemma top_Some_fragment (h : heap) r c :
  top h r = Some c -> exists l o, r = Fragment l /\ h !! l = Some o /\ proto o = c.
Proof.
  destruct r as [|l]; cbn; [done|].
  destruct (h !! l) as [o|] eqn:Hl; [|done]. intros [= <-]. by exists l, o.
Qed.

Lemma stringify_valid (h : heap) s :
  valid h s -> exists t, text h s = Some t /\ stringify s h = Normal t h.
Proof.
  intros [t Ht]%text_valid. exists t. by rewrite stringify_text, Ht.
Qed.

(** A chain from the entry point with a valid ordering: its result and
    the text of the result. *)
Lemma chain_text (h : heap) ops :
  ops <> [] -> valid_ordering (kinds ops) = true ->
  exists l h',
    chain ops cssSelectorBuilder h = Normal (Fragment l) h'
    /\ h `prefix_of` h'
    /\ text h' (Chain (Fragment l)) = Some (concatRender ops).
Proof.
  intros Hne Hv%valid_ordering_accepts.
  destruct (chain_accepted ops h cssSelectorBuilder I Hv) as (r & h' & Hc).
  destruct (chain_builder_Normal _ _ _ _ Hc) as (_ & Hpre & _ & Ht & Hp).
  destruct ops as [|[m v] ops]; [done|].
  destruct (last_top_elem None m (kinds ops)) as (k & _ & Hl).
  change (kinds ((m, v) :: ops)) with (m :: kinds ops) in Ht.
  rewrite Hl in Ht. apply top_Some_fragment in Ht as (l & o & -> & Ho & _).
  by exists l, h'.
Qed.

(** The values a chain hands out are selectors of the store, and the
    selectors there were before remain so. *)
Lemma chain_valid (h : heap) r ops r' h' :
  valid_receiver h r ->
  chain ops r h = Normal r' h' ->
  valid h' (Chain r') /\ forall s, valid h s -> valid h' s.
Proof.
  intros Hr Hc. pose proof (chain_outcome ops h r Hr) as H. rewrite Hc in H.
  destruct H as (_ & Hpre & Hr' & _). split; [done|].
  intros s. by apply valid_prefix.
Qed.

(** A chain on a valid receiver ends, normally or by a throw, in a store
    that extends the one it started in. *)
Lemma chain_frame (h : heap) p ops :
  valid_receiver h p ->
  exists h', final_heap (chain ops p h) = Some h' /\ h `prefix_of` h'.
Proof.
  intros Hp. pose proof (chain_outcome ops h p Hp) as H.
  destruct (chain ops p h) as [b h'|e h'|]; [| |done]; exists h'; cbn;
    by destruct H as (_ & ? & _).
Qed.

(** * The claims *)

(** ** Rendering of a valid chain *)

(** C1. A chain of part operations from the entry point whose kinds are
    non-decreasing in the order element, id, class, attribute,
    pseudo-class, pseudo-element and in which element, id and
    pseudo-element occur at most once runs to completion, and
    [stringify()] on its result returns the concatenation, without
    separators, of the per-kind renderings of its parts. *)
Theorem stringify_valid_chain (h : heap) (ops : list (method * string)) :
  ops <> [] ->
  valid_ordering (kinds ops) = true ->
  exists l h',
    chain ops cssSelectorBuilder h = Normal (Fragment l) h'
    /\ stringify (Chain (Fragment l)) h' = Normal (concatRender ops) h'.
Proof.
  intros Hne Hv.
  destruct (chain_text h ops Hne Hv) as (l & h' & Hc & _ & Ht).
  exists l, h'. split; [done|]. by rewrite stringify_text, Ht.
Qed.

Lemma stringify_valid_chain_witness :
  [(element, "div"); (id, "main"); (class, "container")] <> []
  /\ valid_ordering (kinds [(element, "div"); (id, "main"); (class, "container")]) = true
  /\ exists l h',
       chain [(element, "div"); (id, "main"); (class, "container")]
         cssSelectorBuilder [] = Normal (Fragment l) h'
       /\ stringify (Chain (Fragment l)) h' = Normal "div#main.container" h'.
Proof.
  split; [done|]. split; [reflexivity|].
  apply (stringify_valid_chain []
           [(element, "div"); (id, "main"); (class, "container")]);
    [done|reflexivity].
Defined.

(** ** Order violations *)

(** C2. On the result of a chain, asking for a part whose position in the
    order is strictly less than the position of some part of the chain
    throws the order error, at that call and without touching the
    store. *)
Theorem call_order_violation (h : heap) ops r h' m k v :
  chain ops cssSelectorBuilder h = Normal r h' ->
  k ∈ kinds ops ->
  rank m < rank k ->
  call m v r h' = Throw orderError h'.
Proof.
  intros Hc Hk Hlt.
  destruct (chain_builder_Normal _ _ _ _ Hc) as (Ha & _ & Hr & Ht & _).
  destruct (accepts_le_last _ _ _ Ha Hk) as (c & Hl & Hle).
  destruct (prev_of_valid _ _ Hr) as [p Hp].
  rewrite (call_spec _ _ m v _ Hp), Ht, Hl. cbn [verdict_top].
  rewrite verdict_order; [done|lia].
Qed.

Lemma call_order_violation_witness :
  exists r h',
    chain [(element, "div"); (class, "container")] cssSelectorBuilder [] = Normal r h'
    /\ class ∈ kinds [(element, "div"); (class, "container")]
    /\ rank id < rank class
    /\ call id "main" r h' = Throw orderError h'.
Proof.
  eexists _, _.
  split; [reflexivity|]. split; [by right; left|]. split; [cbn; lia|].
  eapply (call_order_violation [] [(element, "div"); (class, "container")]
            _ _ id class "main");
    [reflexivity|by right; left|cbn; lia].
Defined.

(** ** Cardinality violations and repeatable kinds *)

(** C3. On the result of a chain in which no part ranks above the
    requested kind (so that no order violation applies): asking again
    for element, id or pseudo-element when the chain has one already
    throws the cardinality error, while a class, attribute or
    pseudo-class part can be added any number of times; and these three
    kinds never throw the cardinality error, whatever the chain. *)
Theorem call_cardinality_violation (h : heap) ops r h' m :
  chain ops cssSelectorBuilder h = Normal r h' ->
  (single_occurrence m = true ->
   m ∈ kinds ops ->
   (forall k, k ∈ kinds ops -> rank k <= rank m) ->
   forall v, call m v r h' = Throw multipleError h')
  /\ (single_occurrence m = false ->
      (forall k, k ∈ kinds ops -> rank k <= rank m) ->
      forall vs, exists r'' h'',
        chain ((fun v => (m, v)) <$> vs) r h' = Normal r'' h'')
  /\ (single_occurrence m = false ->
      forall v h'', call m v r h' <> Throw multipleError h'').
Proof.
  intros Hc.
  destruct (chain_builder_Normal _ _ _ _ Hc) as (Ha & _ & Hr & Ht & _).
  destruct (prev_of_valid _ _ Hr) as [p Hp].
  split_and!.
  - intros Hs Hm Hmax v.
    destruct (accepts_le_last _ _ _ Ha Hm) as (c & Hl & Hle).
    rewrite (call_spec _ _ m v _ Hp), Ht, Hl. cbn [verdict_top].
    rewrite verdict_multiple; [done| |done].
    apply rank_inj, Nat.le_antisymm; [done|].
    destruct (kinds ops) as [|k0 ks]; [by apply elem_of_nil in Hm|].
    destruct (last_top_elem None k0 ks) as (k' & Hin & Hl').
    rewrite Hl in Hl'. injection Hl' as ->. rewrite kind_of_ctor_of. by apply Hmax.
  - intros Hs Hmax vs. apply chain_accepted; [done|].
    apply accepts_repeat; [done|]. intros c Hc'. rewrite Ht in Hc'.
    destruct (kinds ops) as [|k0 ks]; [done|].
    destruct (last_top_elem None k0 ks) as (k' & Hin & Hl').
    rewrite Hc' in Hl'. injection Hl' as ->. rewrite kind_of_ctor_of. by apply Hmax.
  - intros Hs v h''. rewrite (call_spec _ _ m v _ Hp).
    destruct (top h' r) as [c|]; cbn [verdict_top]; [|done].
    unfold verdict. rewrite Hs.
    by destruct (rank m <? rank (kind_of c)).
Qed.

Lemma call_cardinality_violation_witness :
  exists r h',
    chain [(element, "div"); (id, "main")] cssSelectorBuilder [] = Normal r h'
    /\ (single_occurrence id = true
        /\ id ∈ kinds [(element, "div"); (id, "main")]
        /\ (forall k, k ∈ kinds [(element, "div"); (id, "main")] -> rank k <= rank id)
        /\ call id "other" r h' = Throw multipleError h')
    /\ (single_occurrence class = false
        /\ (forall k, k ∈ kinds [(element, "div"); (id, "main")] -> rank k <= rank class)
        /\ exists r'' h'',
             chain ((fun v => (class, v)) <$> ["a"; "b"; "c"]) r h' = Normal r'' h'').
Proof.
  assert (forall m, 1 <= rank m ->
            forall k, k ∈ kinds [(element, "div"); (id, "main")] -> rank k <= rank m)
    as Hmax.
  { intros m Hm k Hk. cbn in Hk.
    apply elem_of_cons in Hk as [->|Hk]; [cbn; lia|].
    apply elem_of_cons in Hk as [->|Hk]; [exact Hm|].
    by apply elem_of_nil in Hk. }
  eexists _, _. split; [reflexivity|]. split.
  - split; [reflexivity|]. split; [by right; left|].
    split; [apply Hmax; cbn; lia|].
    refine (proj1 (call_cardinality_violation []
                     [(element, "div"); (id, "main")] _ _ id eq_refl)
              eq_refl _ (Hmax id _) "other"); [by right; left|cbn; lia].
  - split; [reflexivity|]. split; [apply Hmax; cbn; lia|].
    refine (proj1 (proj2 (call_cardinality_violation []
                            [(element, "div"); (id, "main")] _ _ class eq_refl))
              eq_refl (Hmax class _) ["a"; "b"; "c"]).
    cbn; lia.
Defined.

(** ** A second [element] *)

Lemma orderError_ne_multipleError : orderError <> multipleError.
Proof. done. Qed.

(** C5, as the claim states it, fails: with a class part in between, the
    second [element] throws the order error, not the cardinality
    error. *)
Lemma second_element_after_class_counterexample :
  exists r h',
    chain [(element, "div"); (class, "container")] cssSelectorBuilder [] = Normal r h'
    /\ element ∈ kinds [(element, "div"); (class, "container")]
    /\ call element "span" r h' = Throw orderError h'
    /\ call element "span" r h' <> Throw multipleError h'.
Proof.
  eexists _, _. split; [reflexivity|]. split; [by left|].
  split; [reflexivity|]. vm_compute. discriminate.
Qed.

(** C5, amended. On the result of a chain that has an element part,
    [element(...)] always throws, at that call: the cardinality error
    when the element part is the only part of the chain, the order error
    when any part was added after it. *)
Theorem second_element_raises (h : heap) ops r h' v :
  chain ops cssSelectorBuilder h = Normal r h' ->
  element ∈ kinds ops ->
  (length ops = 1 -> call element v r h' = Throw multipleError h')
  /\ (1 < length ops -> call element v r h' = Throw orderError h').
Proof.
  intros Hc He.
  destruct (chain_builder_Normal _ _ _ _ Hc) as (Ha & _ & Hr & Ht & _).
  destruct (prev_of_valid _ _ Hr) as [p Hp].
  rewrite (call_spec _ _ element v _ Hp), Ht.
  destruct ops as [|[m0 v0] ops]; [by apply elem_of_nil in He|].
  change (kinds ((m0, v0) :: ops)) with (m0 :: kinds ops) in *.
  apply accepts_cons_inv in Ha as [_ Ha].
  pose proof (accepts_no_element _ _ Ha) as Hno.
  apply elem_of_cons in He as [<-|He]; [|done].
  rewrite last_top_cons.
  split.
  - intros Hlen. destruct ops; [done|]. cbn in Hlen. lia.
  - intros Hlen. destruct ops as [|[m1 v1] ops]; [cbn in Hlen; lia|].
    change (kinds ((m1, v1) :: ops)) with (m1 :: kinds ops) in *.
    destruct (last_top_elem (Some (ctor_of element)) m1 (kinds ops))
      as (k & Hk & ->).
    cbn [verdict_top]. rewrite verdict_order; [done|].
    rewrite kind_of_ctor_of. destruct k; cbn; try lia. done.
Qed.

Lemma second_element_raises_witness :
  exists r h',
    chain [(element, "div"); (class, "container")] cssSelectorBuilder [] = Normal r h'
    /\ element ∈ kinds [(element, "div"); (class, "container")]
    /\ 1 < length [(element, "div"); (class, "container")]
    /\ call element "span" r h' = Throw orderError h'.
Proof.
  eexists _, _. split; [reflexivity|]. split; [by left|]. split; [cbn; lia|].
  refine (proj2 (second_element_raises []
                   [(element, "div"); (class, "container")] _ _ "span" eq_refl _) _);
    [by left|cbn; lia].
Defined.

(** ** Error messages *)

(** C6. The order error always carries the same message, which spells
    out the order element, id, class, attribute, pseudo-class,
    pseudo-element; the cardinality error always carries the same
    message, that element, id and pseudo-element should not occur more
    than once; and a part operation throws no other error. *)
Theorem error_messages_fixed :
  (forall v this (h : heap),
     apply_func selectorsOrderError v this h = Throw orderError h)
  /\ message orderError
     = "/Selector parts should be arranged in the following order: element, id, class, attribute, pseudo-class, pseudo-element/"
  /\ (exists pre post,
        message orderError
        = pre +:+ "element, id, class, attribute, pseudo-class, pseudo-element" +:+ post)
  /\ (forall v this (h : heap),
        apply_func multipleSelectorsError v this h = Throw multipleError h)
  /\ message multipleError
     = "Element, id and pseudo-element should not occur more then one time inside the selector"
  /\ (forall m v this (h : heap),
        match call m v this h with
        | Throw e _ => e = orderError \/ e = multipleError
        | _ => True
        end).
Proof.
  split_and!; [done|done| |done|done|].
  - by exists "/Selector parts should be arranged in the following order: ", "/".
  - intros m v this h.
    destruct (prev_of h this) as [p|] eqn:Hp.
    + rewrite (call_spec _ _ m v _ Hp).
      destruct (verdict_top (top h this) m); auto.
    + destruct this as [|l]; [done|]. cbn in Hp.
      unfold call, bind, lookup_path, bind, load.
      by destruct (h !! l).
Qed.

(** ** Combination *)

(** C4. For selectors [A] and [B] of the store, chains or combinations,
    and any token [c], [combine(A, c, B)] returns a selector whose
    [stringify()] is [A.stringify()], a space, [c], a space and
    [B.stringify()]; and the nested example of the documentation
    stringifies to the documented text, in whatever store it is run. *)
Theorem stringify_combine :
  (forall (h : heap) A B c,
     valid h A -> valid h B ->
     exists a b AB,
       stringify A h = Normal a h
       /\ stringify B h = Normal b h
       /\ combine A c B h = Normal AB h
       /\ stringify AB h = Normal (a +:+ " " +:+ c +:+ " " +:+ b) h)
  /\ (forall h : heap, exists h',
        documented_example h
        = Normal
            "div#main.container.draggable + table#data ~ tr:nth-of-type(even)   td:nth-of-type(even)"
            h').
Proof.
  split.
  - intros h A B c (a & Ha & HA)%stringify_valid (b & Hb & HB)%stringify_valid.
    exists a, b, (Combined A c B). split_and!; [done..|].
    rewrite stringify_text. cbn [text]. by rewrite Ha, Hb.
  - intros h. unfold documented_example.
    destruct (chain_text h
      [(element, "div"); (id, "main"); (class, "container"); (class, "draggable")])
      as (la & h1 & Hca & Hp1 & Hta); [done..|].
    destruct (chain_text h1 [(element, "table"); (id, "data")])
      as (lb & h2 & Hcb & Hp2 & Htb); [done..|].
    destruct (chain_text h2 [(element, "tr"); (pseudoClass, "nth-of-type(even)")])
      as (lc & h3 & Hcc & Hp3 & Htc); [done..|].
    destruct (chain_text h3 [(element, "td"); (pseudoClass, "nth-of-type(even)")])
      as (ld & h4 & Hcd & Hp4 & Htd); [done..|].
    exists h4. unfold bind at 1. rewrite Hca.
    unfold bind at 1. rewrite Hcb.
    unfold bind at 1. rewrite Hcc.
    unfold bind at 1. rewrite Hcd.
    unfold combine, bind, ret. rewrite stringify_text.
    pose proof (text_prefix h1 h4 _ _ (transitivity Hp2 (transitivity Hp3 Hp4)) Hta)
      as Hta4.
    pose proof (text_prefix h2 h4 _ _ (transitivity Hp3 Hp4) Htb) as Htb4.
    pose proof (text_prefix h3 h4 _ _ Hp4 Htc) as Htc4.
    cbn [text] in *. by rewrite Hta4, Htb4, Htc4, Htd.
Qed.

Lemma stringify_combine_witness :
  valid sample_heap (Chain (Fragment 1)) /\ valid sample_heap (Chain (Fragment 3))
  /\ exists a b AB,
       stringify (Chain (Fragment 1)) sample_heap = Normal a sample_heap
       /\ stringify (Chain (Fragment 3)) sample_heap = Normal b sample_heap
       /\ combine (Chain (Fragment 1)) ">" (Chain (Fragment 3)) sample_heap
          = Normal AB sample_heap
       /\ stringify AB sample_heap = Normal (a +:+ " " +:+ ">" +:+ " " +:+ b) sample_heap.
Proof.
  split; [cbn; lia|]. split; [cbn; lia|].
  apply (proj1 stringify_combine sample_heap); cbn; lia.
Defined.

Example sample_heap_built :
  (_ <- chain [(element, "div"); (id, "main")] cssSelectorBuilder ;;
   chain [(element, "td"); (pseudoClass, "hover")] cssSelectorBuilder) []
  = Normal (Fragment 3) sample_heap.
Proof. reflexivity. Qed.

(** The two chains of the documentation, lines 95-96 and, with a payload
    free of quotation marks, lines 98-99. *)
Example documented_chains :
  (r <- chain [(id, "main"); (class, "container"); (class, "editable")]
          cssSelectorBuilder ;;
   r' <- chain [(element, "a"); (attr, "href$=.png"); (pseudoClass, "focus")]
           cssSelectorBuilder ;;
   s <- stringify (Chain r) ;;
   s' <- stringify (Chain r') ;;
   ret (s, s')) []
  = Normal ("#main.container.editable", "a[href$=.png]:focus")
      [Object IdSelector (Str "main") (Str "");
       Object ClassSelector (Str "container") (Str "#main");
       Object ClassSelector (Str "editable") (Str "#main.container");
       Object ElementSelector (Str "a") (Str "");
       Object AttrSelector (Str "href$=.png") (Str "a");
       Object PseudoClassSelector (Str "focus") (Str "a[href$=.png]")].
Proof. reflexivity. Qed.

(** ** No error from [stringify] or [combine] *)

(** C7. On selectors of the store, [stringify()] completes normally, and
    so does [combine] with any token at all, recognised or not; the
    result of [combine] is again a selector of the store, and its
    [stringify()] completes normally with the token, verbatim, between
    the texts of the two selectors. *)
Theorem stringify_combine_never_throw (h : heap) s s' (token : string) :
  valid h s -> valid h s' ->
  (exists t, stringify s h = Normal t h)
  /\ combine s token s' h = Normal (Combined s token s') h
  /\ valid h (Combined s token s')
  /\ (exists pre post,
        stringify (Combined s token s') h = Normal (pre +:+ token +:+ post) h)
  /\ (forall e h',
        stringify s h <> Throw e h'
        /\ combine s token s' h <> Throw e h'
        /\ stringify (Combined s token s') h <> Throw e h').
Proof.
  intros Hs Hs'.
  destruct (stringify_valid _ _ Hs) as (t & Ht & Hst).
  destruct (stringify_valid _ _ Hs') as (t' & Ht' & Hst').
  assert (stringify (Combined s token s') h
          = Normal ((t +:+ " ") +:+ token +:+ (" " +:+ t')) h) as Hc.
  { rewrite stringify_text. cbn [text]. by rewrite Ht, Ht', append_assoc. }
  split_and!; [by eauto|done|done|by eauto|].
  intros e h'. by rewrite Hst, Hc.
Qed.

Lemma stringify_combine_never_throw_witness :
  valid sample_heap (Chain (Fragment 1)) /\ valid sample_heap (Chain (Fragment 3))
  /\ exists pre post,
       stringify (Combined (Chain (Fragment 1)) "not a combinator" (Chain (Fragment 3)))
         sample_heap
       = Normal (pre +:+ "not a combinator" +:+ post) sample_heap.
Proof.
  split; [cbn; lia|]. split; [cbn; lia|].
  apply (stringify_combine_never_throw sample_heap
           (Chain (Fragment 1)) (Chain (Fragment 3)) "not a combinator");
    cbn; lia.
Defined.

(** ** Rendering twice *)

(** C8. On a selector of the store, chain or combination, two calls of
    [stringify()] in a row return the same string, and the store after
    them is the store before them. *)
Theorem stringify_idempotent (h : heap) s :
  valid h s ->
  exists t,
    stringify s h = Normal t h
    /\ (a <- stringify s ;; b <- stringify s ;; ret (a, b)) h = Normal (t, t) h.
Proof.
  intros (t & Ht & Hs)%stringify_valid. exists t. split; [done|].
  unfold bind. rewrite Hs, Hs. done.
Qed.

Lemma stringify_idempotent_witness :
  valid sample_heap (Combined (Chain (Fragment 1)) "~" (Chain (Fragment 3)))
  /\ exists t,
       stringify (Combined (Chain (Fragment 1)) "~" (Chain (Fragment 3))) sample_heap
       = Normal t sample_heap
       /\ (a <- stringify (Combined (Chain (Fragment 1)) "~" (Chain (Fragment 3))) ;;
           b <- stringify (Combined (Chain (Fragment 1)) "~" (Chain (Fragment 3))) ;;
           ret (a, b)) sample_heap
          = Normal (t, t) sample_heap.
Proof.
  split; [cbn; lia|].
  apply (stringify_idempotent sample_heap); cbn; lia.
Defined.

(** ** Chains that share a prefix *)

(** C9. Let two chains [a] and [b] have been built, one after the other,
    on the same prefix [p], and let either of them be extended by further
    part operations, to completion or up to the call that throws.
    Building [b] changed neither the text of [a] nor that of [p]; and the
    extension leaves every object of the store where and as it was, so
    that [stringify()] on [a], on [b] and on [p] returns the same strings
    after it as before. *)
Theorem shared_prefix_independent (h : heap) p ops1 ops2 a b h1 h2 x ops :
  valid_receiver h p ->
  chain ops1 p h = Normal a h1 ->
  chain ops2 p h1 = Normal b h2 ->
  x = a \/ x = b ->
  exists tp ta tb h3,
    stringify (Chain p) h = Normal tp h
    /\ (stringify (Chain p) h1 = Normal tp h1
        /\ stringify (Chain a) h1 = Normal ta h1)
    /\ (stringify (Chain p) h2 = Normal tp h2
        /\ stringify (Chain a) h2 = Normal ta h2
        /\ stringify (Chain b) h2 = Normal tb h2)
    /\ final_heap (chain ops x h2) = Some h3
    /\ (forall l o, h2 !! l = Some o -> h3 !! l = Some o)
    /\ (stringify (Chain p) h3 = Normal tp h3
        /\ stringify (Chain a) h3 = Normal ta h3
        /\ stringify (Chain b) h3 = Normal tb h3).
Proof.
  intros Hp Hc1 Hc2 Hx.
  pose proof (chain_outcome ops1 h p Hp) as H1. rewrite Hc1 in H1.
  destruct H1 as (_ & Hpre1 & Ha & _).
  pose proof (valid_receiver_prefix _ _ _ Hpre1 Hp) as Hp1.
  pose proof (chain_outcome ops2 h1 p Hp1) as H2. rewrite Hc2 in H2.
  destruct H2 as (_ & Hpre2 & Hb & _).
  assert (valid_receiver h2 x) as Hx2.
  { destruct Hx as [-> | ->]; [|done]. by eapply valid_receiver_prefix. }
  destruct (chain_frame h2 x ops Hx2) as (h3 & Hf & Hpre3).
  destruct (stringify_valid h (Chain p) Hp) as (tp & Htp & _).
  destruct (stringify_valid h1 (Chain a) Ha) as (ta & Hta & _).
  destruct (stringify_valid h2 (Chain b) Hb) as (tb & Htb & _).
  pose proof (text_prefix _ _ _ _ Hpre1 Htp) as Htp1.
  pose proof (text_prefix _ _ _ _ Hpre2 Htp1) as Htp2.
  pose proof (text_prefix _ _ _ _ Hpre2 Hta) as Hta2.
  exists tp, ta, tb, h3. rewrite !stringify_text.
  rewrite Htp, Htp1, Hta, Htp2, Hta2, Htb.
  rewrite (text_prefix _ _ _ _ Hpre3 Htp2), (text_prefix _ _ _ _ Hpre3 Hta2),
    (text_prefix _ _ _ _ Hpre3 Htb).
  split_and!; try done.
  intros l o Hl. by eapply prefix_lookup_Some.
Qed.

Lemma shared_prefix_independent_witness :
  valid_receiver sample_heap (Fragment 1)
  /\ chain [(class, "a")] (Fragment 1) sample_heap
     = Normal (Fragment 4)
         (sample_heap ++ [Object ClassSelector (Str "a") (Str "div#main")])
  /\ chain [(attr, "b")] (Fragment 1)
       (sample_heap ++ [Object ClassSelector (Str "a") (Str "div#main")])
     = Normal (Fragment 5)
         (sample_heap ++ [Object ClassSelector (Str "a") (Str "div#main");
                          Object AttrSelector (Str "b") (Str "div#main")])
  /\ exists tp ta tb h3,
       stringify (Chain (Fragment 1)) sample_heap = Normal tp sample_heap
       /\ final_heap
            (chain [(pseudoClass, "c"); (id, "d")] (Fragment 4)
               (sample_heap ++ [Object ClassSelector (Str "a") (Str "div#main");
                                Object AttrSelector (Str "b") (Str "div#main")]))
          = Some h3
       /\ stringify (Chain (Fragment 1)) h3 = Normal tp h3
       /\ stringify (Chain (Fragment 4)) h3 = Normal ta h3
       /\ stringify (Chain (Fragment 5)) h3 = Normal tb h3.
Proof.
  split; [cbn; lia|]. split; [reflexivity|]. split; [reflexivity|].
  destruct (shared_prefix_independent sample_heap (Fragment 1)
              [(class, "a")] [(attr, "b")] (Fragment 4) (Fragment 5)
              (sample_heap ++ [Object ClassSelector (Str "a") (Str "div#main")])
              (sample_heap ++ [Object ClassSelector (Str "a") (Str "div#main");
                               Object AttrSelector (Str "b") (Str "div#main")])
              (Fragment 4) [(pseudoClass, "c"); (id, "d")])
    as (tp & ta & tb & h3 & Hp & _ & _ & Hf & _ & Hp3 & Ha3 & Hb3);
    [cbn; lia|reflexivity|reflexivity|by left|].
  by exists tp, ta, tb, h3.
Defined.

(** ** Payloads *)

(** C10. No part operation looks at its payload.  From the entry point,
    each of the six operations completes normally on every string, the
    empty one included, and the result stringifies to the per-kind
    rendering of the payload as it was given.  On any receiver of the
    store, either the operation throws one and the same error whatever
    the payload, or it completes normally whatever the payload, with the
    rendering of the payload appended to the receiver's text. *)
Theorem payload_not_validated (h : heap) this m :
  valid_receiver h this ->
  (forall v, exists h',
     call m v cssSelectorBuilder h = Normal (Fragment (length h)) h'
     /\ stringify (Chain (Fragment (length h))) h' = Normal (perKindRender m v) h')
  /\ (exists h',
        call m "" cssSelectorBuilder h = Normal (Fragment (length h)) h'
        /\ stringify (Chain (Fragment (length h))) h' = Normal (perKindRender m "") h')
  /\ ((exists e, forall v, call m v this h = Throw e h)
      \/ (exists p, prev_of h this = Some p /\
          forall v, exists h',
            call m v this h = Normal (Fragment (length h)) h'
            /\ stringify (Chain (Fragment (length h))) h'
               = Normal (p +:+ perKindRender m v) h')).
Proof.
  intros Hthis.
  assert (forall r p v, prev_of h r = Some p ->
            verdict_top (top h r) m = new_ (ctor_of m) ->
            exists h',
              call m v r h = Normal (Fragment (length h)) h'
              /\ stringify (Chain (Fragment (length h))) h'
                 = Normal (p +:+ perKindRender m v) h') as Hnew.
  { intros r p v Hp Hv. eexists. rewrite (call_spec _ _ m v _ Hp), Hv.
    split; [done|]. rewrite stringify_text.
    change (text ?h (Chain (Fragment ?l))) with (prev_of h (Fragment l)).
    by rewrite prev_of_fresh, kind_of_ctor_of. }
  split_and!.
  - intros v. by apply (Hnew cssSelectorBuilder "" v).
  - by apply (Hnew cssSelectorBuilder "" "").
  - destruct (prev_of_valid _ _ Hthis) as [p Hp].
    destruct (verdict_top (top h this) m) as [c| |] eqn:Hv.
    + right. exists p. split; [done|]. intros v.
      apply Hnew; [done|]. by rewrite Hv, (verdict_top_new _ _ _ Hv).
    + left. exists orderError. intros v. by rewrite (call_spec _ _ m v _ Hp), Hv.
    + left. exists multipleError. intros v. by rewrite (call_spec _ _ m v _ Hp), Hv.
Qed.

Lemma payload_not_validated_witness :
  valid_receiver sample_heap (Fragment 1)
  /\ exists h',
       call id "" cssSelectorBuilder sample_heap = Normal (Fragment 4) h'
       /\ stringify (Chain (Fragment 4)) h' = Normal "#" h'.
Proof.
  split; [cbn; lia|].
  apply (proj1 (proj2 (payload_not_validated sample_heap (Fragment 1) id
                         ltac:(cbn; lia)))).
Defined.

(** * Further properties of the builder *)

(** ** Accepted chains are exactly the valid orderings *)

Lemma accepts_ge_top ks : forall c k,
  accepts (Some c) ks = true -> k ∈ ks -> rank (kind_of c) <= rank k.
Proof.
  induction ks as [|k0 ks IH]; intros c k Ha Hk; [by apply elem_of_nil in Hk|].
  apply accepts_cons_inv in Ha as [Hv Ha].
  apply verdict_new_inv in Hv as [Hle _].
  apply elem_of_cons in Hk as [->|Hk]; [done|].
  specialize (IH _ _ Ha Hk). rewrite kind_of_ctor_of in IH. lia.
Qed.

Lemma accepts_single_notin ks c :
  accepts (Some c) ks = true ->
  single_occurrence (kind_of c) = true -> kind_of c ∉ ks.
Proof.
  destruct ks as [|k ks]; intros Ha Hs; [by apply not_elem_of_nil|].
  apply accepts_cons_inv in Ha as [Hv Ha].
  apply verdict_new_inv in Hv as [Hle Hne].
  assert (k <> kind_of c) as Hk by (intros ->; by apply Hne).
  apply not_elem_of_cons. split; [done|]. intros Hin.
  pose proof (accepts_ge_top _ _ _ Ha Hin) as Hge. rewrite kind_of_ctor_of in Hge.
  apply Hk, rank_inj. lia.
Qed.

Lemma occurrences_not_elem m ks : m ∉ ks -> occurrences m ks = 0.
Proof.
  induction ks as [|k ks IH]; [done|].
  intros [Hne Hin]%not_elem_of_cons. rewrite occurrences_cons, IH by done.
  by rewrite decide_False.
Qed.

Lemma single_occurrence_respected_intro ks :
  (forall m, single_occurrence m = true -> occurrences m ks <= 1) ->
  single_occurrence_respected ks = true.
Proof.
  intros H. unfold single_occurrence_respected. cbn [forallb].
  rewrite !andb_true_iff, !Nat.leb_le. split_and!; [by apply H..|done].
Qed.

Lemma accepts_valid_ordering ks : forall t,
  accepts t ks = true -> valid_ordering ks = true.
Proof.
  unfold valid_ordering.
  induction ks as [|k ks IH]; intros t Ha; [done|].
  apply accepts_cons_inv in Ha as [_ Ha].
  destruct (proj1 (andb_true_iff _ _) (IH _ Ha)) as [Hnd Hso].
  apply andb_true_iff. split.
  - cbn [non_decreasing]. apply andb_true_iff. split; [|done].
    apply forallb_forall. intros k' Hin%list_elem_of_In. apply Nat.leb_le.
    pose proof (accepts_ge_top _ _ _ Ha Hin) as Hge.
    by rewrite kind_of_ctor_of in Hge.
  - apply single_occurrence_respected_intro. intros m Hs.
    rewrite occurrences_cons.
    pose proof (single_occurrence_respected_spec _ _ Hso Hs) as Hle.
    destruct (decide (k = m)) as [->|]; [|lia].
    rewrite occurrences_not_elem; [lia|].
    rewrite <-(kind_of_ctor_of m). apply accepts_single_notin; [done|].
    by rewrite kind_of_ctor_of.
Qed.

(** X1. A chain of part operations from the entry point runs to
    completion if and only if its kinds are non-decreasing in the order
    and no single-occurrence kind is repeated; otherwise it throws. *)
Theorem chain_completes_iff_valid_ordering (h : heap) ops :
  ((exists r h', chain ops cssSelectorBuilder h = Normal r h')
   <-> valid_ordering (kinds ops) = true)
  /\ ((exists e h', chain ops cssSelectorBuilder h = Throw e h')
      <-> valid_ordering (kinds ops) = false).
Proof.
  pose proof (chain_outcome ops h cssSelectorBuilder I) as H.
  cbn [top] in H.
  destruct (chain ops cssSelectorBuilder h) as [r h'|e h'|] eqn:Hc; [| |done].
  - destruct H as (Ha%accepts_valid_ordering & _).
    split; (split; [|intros Hv]).
    + done.
    + by eauto.
    + by intros (? & ? & ?).
    + congruence.
  - destruct H as (Ha & _).
    assert (valid_ordering (kinds ops) = false) as Hv.
    { destruct (valid_ordering (kinds ops)) eqn:Hv; [|done].
      apply valid_ordering_accepts in Hv. congruence. }
    split; (split; [|intros Hv']).
    + by intros (? & ? & ?).
    + congruence.
    + done.
    + by eauto.
Qed.

(** ** What a chain allocates, and where it stops *)

Lemma chain_trace ops : forall (h : heap) r,
  valid_receiver h r ->
  match chain ops r h with
  | Normal r' h' =>
      first_error (top h r) (kinds ops) = None
      /\ length h' = length h + length ops
      /\ r' = match ops with
              | [] => r
              | _ :: _ => Fragment (length h + length ops - 1)
              end
  | Throw e h' =>
      first_error (top h r) (kinds ops) = Some e
      /\ length h <= length h' < length h + length ops
  | Stuck => False
  end.
Proof.
  induction ops as [|[m v] ops IH]; intros h r Hr.
  - cbn. split_and!; [done|lia|done].
  - cbn [chain kinds fmap list_fmap fst first_error length]. unfold bind.
    destruct (prev_of_valid _ _ Hr) as [p Hp].
    rewrite (call_spec _ _ m v _ Hp).
    destruct (verdict_top (top h r) m) as [c| |] eqn:Hv;
      [|split; [done|lia]..].
    pose proof (verdict_top_new _ _ _ Hv) as ->.
    set (h1 := h ++ [Object (ctor_of m) (Str v) (Str p)]).
    assert (length h1 = S (length h)) as Hlen.
    { unfold h1. rewrite length_app. cbn. lia. }
    assert (valid_receiver h1 (Fragment (length h))) as Hr1 by (cbn; lia).
    specialize (IH h1 (Fragment (length h)) Hr1).
    assert (top h1 (Fragment (length h)) = Some (ctor_of m)) as Ht1
      by apply top_fresh.
    rewrite Ht1 in IH.
    destruct (chain ops (Fragment (length h)) h1) as [r' h'|e h'|]; [| |done].
    + destruct IH as (Hf & Hl & Hr'). split_and!; [done|lia|].
      rewrite Hr'. destruct ops; f_equal; cbn; lia.
    + destruct IH as (Hf & Hl). split; [done|lia].
Qed.

Lemma chain_app ops1 ops2 : forall (h : heap) r,
  chain (ops1 ++ ops2) r h = (r' <- chain ops1 r ;; chain ops2 r') h.
Proof.
  induction ops1 as [|[m v] ops1 IH]; intros h r; [done|].
  cbn [app chain]. unfold bind.
  destruct (call m v r h) as [r1 h1|e h1|]; [|done..].
  by rewrite IH.
Qed.

(** X2. On any receiver of the store, a chain of [n] part operations
    that completes allocates exactly [n] objects on top of the store it
    started in and returns the last of them; a chain that throws also
    leaves the store it started in in place, and allocates fewer than
    [n] objects. *)
Theorem chain_allocates_one_object_per_call (h : heap) r ops :
  valid_receiver h r ->
  match chain ops r h with
  | Normal r' h' =>
      h `prefix_of` h'
      /\ length h' = length h + length ops
      /\ (ops <> [] -> r' = Fragment (length h' - 1))
  | Throw e h' =>
      h `prefix_of` h'
      /\ length h' < length h + length ops
  | Stuck => False
  end.
Proof.
  intros Hr.
  pose proof (chain_outcome ops h r Hr) as H1.
  pose proof (chain_trace ops h r Hr) as H2.
  destruct (chain ops r h) as [r' h'|e h'|]; [| |done].
  - destruct H1 as (_ & Hpre & _), H2 as (_ & Hl & ->).
    split_and!; [done..|]. intros Hne. destruct ops; [done|]. f_equal. lia.
  - destruct H1 as (_ & Hpre & _), H2 as (_ & Hl). split; [done|lia].
Qed.

Lemma chain_allocates_one_object_per_call_witness :
  valid_receiver sample_heap (Fragment 1)
  /\ exists e h',
       chain [(class, "a"); (attr, "b"); (id, "c"); (attr, "d")]
         (Fragment 1) sample_heap = Throw e h'
       /\ sample_heap `prefix_of` h'
       /\ length h' < length sample_heap + 4.
Proof.
  split; [cbn; lia|]. eexists _, _. split; [reflexivity|].
  exact (chain_allocates_one_object_per_call sample_heap (Fragment 1)
           [(class, "a"); (attr, "b"); (id, "c"); (attr, "d")]
           ltac:(cbn; lia)).
Defined.

(** ** Outcomes are decided by the kinds *)

Lemma chain_status ops (h : heap) r :
  valid_receiver h r ->
  status (chain ops r h) = Some (first_error (top h r) (kinds ops)).
Proof.
  intros Hr. pose proof (chain_trace ops h r Hr) as H.
  destruct (chain ops r h) as [r' h'|e h'|]; [| |done]; cbn;
    destruct H as [-> _]; done.
Qed.

(** X3. Whether a chain completes or throws, and which error it throws,
    depends on the kind of the receiver's last part and on the kinds of
    the operations only: not on the payloads, and not on the store. *)
Theorem chain_status_depends_on_kinds_only (h h' : heap) r r' ops ops' :
  valid_receiver h r ->
  valid_receiver h' r' ->
  top h r = top h' r' ->
  kinds ops = kinds ops' ->
  status (chain ops r h) = status (chain ops' r' h').
Proof.
  intros Hr Hr' Ht Hk. rewrite !chain_status by done. by rewrite Ht, Hk.
Qed.

Lemma chain_status_depends_on_kinds_only_witness :
  valid_receiver sample_heap (Fragment 1)
  /\ valid_receiver [Object IdSelector (Str "") (Str "x y")] (Fragment 0)
  /\ top sample_heap (Fragment 1)
     = top [Object IdSelector (Str "") (Str "x y")] (Fragment 0)
  /\ kinds [(class, "a"); (id, "b")] = kinds [(class, ""); (id, "#")]
  /\ status (chain [(class, "a"); (id, "b")] (Fragment 1) sample_heap)
     = status (chain [(class, ""); (id, "#")] (Fragment 0)
                 [Object IdSelector (Str "") (Str "x y")]).
Proof.
  split; [cbn; lia|]. split; [cbn; lia|]. split; [reflexivity|].
  split; [reflexivity|].
  apply chain_status_depends_on_kinds_only;
    [cbn; lia|cbn; lia|reflexivity|reflexivity].
Defined.

Lemma kinds_app ops1 ops2 : kinds (ops1 ++ ops2) = kinds ops1 ++ kinds ops2.
Proof. apply fmap_app. Qed.

Lemma accepts_app ks1 ks2 : forall t,
  accepts t (ks1 ++ ks2) = accepts t ks1 && accepts (last_top t ks1) ks2.
Proof.
  induction ks1 as [|k ks1 IH]; intros t; [done|].
  cbn [app accepts]. destruct (verdict_top t k) as [c| |] eqn:Hv; [|done..].
  rewrite IH, last_top_cons. by rewrite (verdict_top_new _ _ _ Hv).
Qed.

Lemma last_top_snoc t ks k : last_top t (ks ++ [k]) = Some (ctor_of k).
Proof. unfold last_top. by rewrite last_snoc. Qed.

(** X4. A chain from the entry point stops at its first refused part:
    when the parts up to [k] are validly ordered and [m], the next one,
    is not allowed after them, the chain throws at [m] -- the order error
    when [m] ranks below [k], the cardinality error otherwise, in which
    case [m] is [k] again and a single-occurrence kind.  The parts after
    [m] are not run, and the objects of the parts before it stay in the
    store. *)
Theorem chain_stops_at_first_refused_part (h : heap) pre k vk m vm post :
  valid_ordering (kinds (pre ++ [(k, vk)])) = true ->
  valid_ordering (kinds (pre ++ [(k, vk); (m, vm)])) = false ->
  exists h',
    chain (pre ++ (k, vk) :: (m, vm) :: post) cssSelectorBuilder h
    = Throw (if rank m <? rank k then orderError else multipleError) h'
    /\ h `prefix_of` h'
    /\ length h' = length h + length pre + 1
    /\ (rank k <= rank m -> m = k /\ single_occurrence m = true).
Proof.
  intros Hv Hnv.
  apply valid_ordering_accepts in Hv.
  destruct (chain_accepted _ h cssSelectorBuilder I Hv) as (r & h1 & Hc).
  destruct (chain_builder_Normal _ _ _ _ Hc) as (_ & Hpre & Hr & Ht & _).
  pose proof (chain_trace (pre ++ [(k, vk)]) h cssSelectorBuilder I) as Hl.
  rewrite Hc in Hl. destruct Hl as (_ & Hl & _).
  rewrite kinds_app in Ht. cbn [kinds fmap list_fmap fst] in Ht.
  rewrite last_top_snoc in Ht.
  assert (verdict (ctor_of k) m <> new_ (ctor_of m)) as Hnew.
  { intros Hnew.
    assert (accepts None (kinds (pre ++ [(k, vk); (m, vm)])) = true) as Ha.
    { change (pre ++ [(k, vk); (m, vm)]) with (pre ++ [(k, vk)] ++ [(m, vm)]).
      rewrite app_assoc, kinds_app, accepts_app, Hv.
      rewrite kinds_app. cbn [kinds fmap list_fmap fst].
      rewrite last_top_snoc. cbn. by rewrite Hnew. }
    apply accepts_valid_ordering in Ha. congruence. }
  exists h1.
  change (pre ++ (k, vk) :: (m, vm) :: post)
    with (pre ++ [(k, vk)] ++ (m, vm) :: post).
  rewrite app_assoc, chain_app. unfold bind at 1. rewrite Hc.
  cbn [chain]. unfold bind.
  destruct (prev_of_valid _ _ Hr) as [p Hp].
  rewrite (call_spec _ _ m vm _ Hp), Ht. cbn [verdict_top].
  rewrite length_app in Hl. cbn in Hl.
  unfold verdict in *. rewrite kind_of_ctor_of in *.
  destruct (rank m <? rank k) eqn:Hlt.
  - split_and!; [done|done|lia|]. apply Nat.ltb_lt in Hlt. lia.
  - destruct (single_occurrence m) eqn:Hs; cbn [andb] in *; [|done].
    case_bool_decide as Hmk; [|done].
    split_and!; [done|done|lia|done].
Qed.

Lemma chain_stops_at_first_refused_part_witness :
  valid_ordering (kinds ([(element, "div")] ++ [(class, "a")])) = true
  /\ valid_ordering (kinds ([(element, "div")] ++ [(class, "a"); (id, "b")])) = false
  /\ exists h',
       chain ([(element, "div")] ++ (class, "a") :: (id, "b") :: [(attr, "c")])
         cssSelectorBuilder [] = Throw orderError h'
       /\ length h' = 2.
Proof.
  split; [reflexivity|]. split; [reflexivity|].
  destruct (chain_stops_at_first_refused_part [] [(element, "div")]
              class "a" id "b" [(attr, "c")] eq_refl eq_refl)
    as (h' & Hc & _ & Hl & _).
  exists h'. split; [exact Hc|exact Hl].
Defined.

(** ** Every object of a reachable store is a valid selector *)









(** ** Combinations *)

(** X6. The object returned by [combine] computes its text from its
    operands at each [stringify()] call; all the same, no part operation
    made later, on any receiver, its own operands included, changes that
    text, whether the later chain completes or throws. *)
Theorem combined_text_stable (h : heap) s1 token s2 r ops :
  valid h s1 -> valid h s2 ->
  valid_receiver h r ->
  exists t h',
    stringify (Combined s1 token s2) h = Normal t h
    /\ final_heap (chain ops r h) = Some h'
    /\ valid h' (Combined s1 token s2)
    /\ stringify (Combined s1 token s2) h' = Normal t h'.
Proof.
  intros Hs1 Hs2 Hr.
  assert (valid h (Combined s1 token s2)) as Hs by done.
  destruct (stringify_valid _ _ Hs) as (t & Ht & Hst).
  destruct (chain_frame h r ops Hr) as (h' & Hf & Hpre).
  exists t, h'. split_and!; [done|done|by eapply valid_prefix|].
  by rewrite stringify_text, (text_prefix _ _ _ _ Hpre Ht).
Qed.

Lemma combined_text_stable_witness :
  valid sample_heap (Chain (Fragment 1))
  /\ valid sample_heap (Chain (Fragment 3))
  /\ valid_receiver sample_heap (Fragment 1)
  /\ exists t h',
       stringify (Combined (Chain (Fragment 1)) ">" (Chain (Fragment 3))) sample_heap
       = Normal t sample_heap
       /\ final_heap (chain [(class, "a"); (element, "b")] (Fragment 1) sample_heap)
          = Some h'
       /\ stringify (Combined (Chain (Fragment 1)) ">" (Chain (Fragment 3))) h'
          = Normal t h'.
Proof.
  split; [cbn; lia|]. split; [cbn; lia|]. split; [cbn; lia|].
  destruct (combined_text_stable sample_heap (Chain (Fragment 1)) ">"
              (Chain (Fragment 3)) (Fragment 1) [(class, "a"); (element, "b")])
    as (t & h' & Ht & Hf & _ & Ht'); [cbn; lia..|].
  by exists t, h'.
Defined.

(** X7. The text of a nested combination does not show how it was
    nested: combining [A] with [B] and the result with [C] stringifies to
    the same string as combining [A] with the combination of [B] and
    [C]. *)
Theorem combine_text_associative (h : heap) A B C c d :
  valid h A -> valid h B -> valid h C ->
  exists AB BC t,
    combine A c B h = Normal AB h
    /\ combine B d C h = Normal BC h
    /\ stringify (Combined AB d C) h = Normal t h
    /\ stringify (Combined A c BC) h = Normal t h.
Proof.
  intros (a & Ha & _)%stringify_valid (b & Hb & _)%stringify_valid
    (c' & Hc & _)%stringify_valid.
  exists (Combined A c B), (Combined B d C). eexists.
  split_and!; [done..| |].
  - rewrite stringify_text. cbn [text]. by rewrite Ha, Hb, Hc.
  - rewrite stringify_text. cbn [text]. rewrite Ha, Hb, Hc.
    by rewrite !append_assoc.
Qed.

Lemma combine_text_associative_witness :
  valid sample_heap (Chain (Fragment 0))
  /\ valid sample_heap (Chain (Fragment 1))
  /\ valid sample_heap (Chain (Fragment 3))
  /\ exists t,
       stringify (Combined (Combined (Chain (Fragment 0)) "+" (Chain (Fragment 1)))
                    "~" (Chain (Fragment 3))) sample_heap
       = Normal t sample_heap
       /\ stringify (Combined (Chain (Fragment 0)) "+"
                       (Combined (Chain (Fragment 1)) "~" (Chain (Fragment 3))))
            sample_heap
          = Normal t sample_heap.
Proof.
  split; [cbn; lia|]. split; [cbn; lia|]. split; [cbn; lia|].
  destruct (combine_text_associative sample_heap (Chain (Fragment 0))
              (Chain (Fragment 1)) (Chain (Fragment 3)) "+" "~")
    as (AB & BC & t & HAB & HBC & H1 & H2); [cbn; lia..|].
  injection HAB as <-. injection HBC as <-. by exists t.
Defined.

(** ** Extending any receiver *)

(** X8. Part operations added to any receiver render after the
    receiver's own text: on an object of the store, the result of a
    non-empty chain that completes stringifies to the receiver's text
    followed by the renderings of the new parts.  On the entry point the
    prefix is empty, although [stringify()] on the entry point itself
    returns the text "undefinedundefined". *)
Theorem extension_renders_after_receiver (h : heap) r ops r' h' :
  valid_receiver h r ->
  ops <> [] ->
  chain ops r h = Normal r' h' ->
  exists t,
    stringify (Chain r') h' = Normal (t +:+ concatRender ops) h'
    /\ match r with
       | cssSelectorBuilder =>
           t = ""
           /\ stringify (Chain cssSelectorBuilder) h = Normal "undefinedundefined" h
       | Fragment l => stringify (Chain (Fragment l)) h = Normal t h
       end.
Proof.
  intros Hr Hne Hc.
  pose proof (chain_outcome ops h r Hr) as H1. rewrite Hc in H1.
  destruct H1 as (_ & _ & _ & _ & Hp).
  pose proof (chain_trace ops h r Hr) as H2. rewrite Hc in H2.
  destruct H2 as (_ & _ & ->).
  destruct ops as [|op ops]; [done|].
  destruct (prev_of_valid _ _ Hr) as [t Ht]. rewrite Ht in Hp.
  exists t. split.
  - rewrite stringify_text.
    change (text h' (Chain (Fragment ?l))) with (prev_of h' (Fragment l)).
    by rewrite Hp.
  - destruct r as [|l]; cbn in Ht.
    + by injection Ht as <-.
    + rewrite stringify_text. cbn [text]. by rewrite Ht.
Qed.

Lemma extension_renders_after_receiver_witness :
  valid_receiver sample_heap (Fragment 1)
  /\ [(class, "a"); (attr, "b")] <> []
  /\ exists r' h',
       chain [(class, "a"); (attr, "b")] (Fragment 1) sample_heap = Normal r' h'
       /\ exists t,
            stringify (Chain r') h'
            = Normal (t +:+ concatRender [(class, "a"); (attr, "b")]) h'
            /\ stringify (Chain (Fragment 1)) sample_heap = Normal t sample_heap.
Proof.
  split; [cbn; lia|]. split; [done|]. eexists _, _. split; [reflexivity|].
  apply (extension_renders_after_receiver sample_heap (Fragment 1)
           [(class, "a"); (attr, "b")]); [cbn; lia|done|reflexivity].
Defined.

(** ** Payloads are not escaped *)

(** X9. The text of a selector does not determine its parts: for all
    strings [v] and [w], the one-part chain [element(v + "#" + w)] and
    the two-part chain [element(v).id(w)] both complete and stringify to
    the same string, [v + "#" + w]. *)
Theorem rendering_is_not_injective (h : heap) (v w : string) :
  exists l1 h1 l2 h2,
    chain [(element, v +:+ "#" +:+ w)] cssSelectorBuilder h = Normal (Fragment l1) h1
    /\ chain [(element, v); (id, w)] cssSelectorBuilder h = Normal (Fragment l2) h2
    /\ stringify (Chain (Fragment l1)) h1 = Normal (v +:+ "#" +:+ w) h1
    /\ stringify (Chain (Fragment l2)) h2 = Normal (v +:+ "#" +:+ w) h2
    /\ length h1 <> length h2.
Proof.
  destruct (chain_text h [(element, v +:+ "#" +:+ w)])
    as (l1 & h1 & Hc1 & _ & Ht1); [done..|].
  destruct (chain_text h [(element, v); (id, w)])
    as (l2 & h2 & Hc2 & _ & Ht2); [done..|].
  pose proof (chain_trace [(element, v +:+ "#" +:+ w)] h cssSelectorBuilder I) as Hl1.
  pose proof (chain_trace [(element, v); (id, w)] h cssSelectorBuilder I) as Hl2.
  rewrite Hc1 in Hl1. rewrite Hc2 in Hl2.
  destruct Hl1 as (_ & Hl1 & _), Hl2 as (_ & Hl2 & _). cbn in Hl1, Hl2.
  exists l1, h1, l2, h2. rewrite !stringify_text, Ht1, Ht2.
  cbn [concatRender perKindRender]. rewrite !append_empty_r.
  split_and!; [done..|lia].
Qed.

(** ** The decision table of one call *)

(** X10. On an object of the store whose last part has kind [k], a part
    operation of kind [m] throws the order error exactly when [m] ranks
    below [k], throws the cardinality error exactly when [m] is [k] and a
    single-occurrence kind, and completes, allocating the next address,
    in all other cases and in no other; a throw leaves the store as it
    was. *)
Theorem call_decision_table (h : heap) l o m v :
  h !! l = Some o ->
  (call m v (Fragment l) h = Throw orderError h
   <-> rank m < rank (kind_of (proto o)))
  /\ (call m v (Fragment l) h = Throw multipleError h
      <-> m = kind_of (proto o) /\ single_occurrence m = true)
  /\ ((exists h', call m v (Fragment l) h = Normal (Fragment (length h)) h')
      <-> rank (kind_of (proto o)) <= rank m
          /\ ~ (m = kind_of (proto o) /\ single_occurrence m = true))
  /\ (forall e h', call m v (Fragment l) h = Throw e h' -> h' = h).
Proof.
  intros Hl.
  assert (prev_of h (Fragment l) = Some (object_text o)) as Hp
    by (cbn; by rewrite Hl).
  rewrite (call_spec _ _ m v _ Hp). cbn [top]. rewrite Hl. cbn [fmap option_fmap option_map verdict_top].
  destruct (Nat.lt_ge_cases (rank m) (rank (kind_of (proto o)))) as [Hlt|Hge].
  - rewrite verdict_order by done.
    split_and!; [done| | |by intros e h' [= _ <-]].
    + split; [done|]. intros [-> _]. lia.
    + split; [by intros [? ?]|]. intros [? _]. lia.
  - destruct (decide (m = kind_of (proto o) /\ single_occurrence m = true))
      as [[Hm Hs]|Hn].
    + rewrite verdict_multiple by done.
      split_and!; [|done| |by intros e h' [= _ <-]].
      * split; [done|]. lia.
      * split; [by intros [? ?]|]. by intros [_ []].
    + rewrite verdict_new by (try done; intros ? ?; by apply Hn).
      split_and!; [| | |done].
      * split; [done|]. lia.
      * split; [done|]. by intros.
      * split; [done|]. by eauto.
Qed.

Lemma call_decision_table_witness :
  sample_heap !! 3 = Some (Object PseudoClassSelector (Str "hover") (Str "td"))
  /\ call attr "x" (Fragment 3) sample_heap = Throw orderError sample_heap
  /\ exists h',
       call pseudoClass "x" (Fragment 3) sample_heap = Normal (Fragment 4) h'.
Proof.
  split; [reflexivity|].
  destruct (call_decision_table sample_heap 3 _ attr "x" eq_refl)
    as (Ho & _).
  destruct (call_decision_table sample_heap 3 _ pseudoClass "x" eq_refl)
    as (_ & _ & Hn & _).
  split.
  - apply Ho. cbn. lia.
  - apply Hn. split; [cbn; lia|]. by intros [_ ?].
Defined.
